(** * Lowering of field operators (FOAST) to Iterator IR (ITIR)

    A shallow embedding of [functional/ffront/foast_to_itir.py]: the
    [AssignResolver], which inlines a straight-line sequence of assignments
    into the final return statement, and the [FieldOperatorLowering], which
    rewrites every surface node into Iterator IR and inserts a [deref] call at
    every value use of a field symbol. *)

From Stdlib Require Import ZArith String List.
From stdpp Require Import base option list strings gmap fin_maps.

Local Open Scope string_scope.
Set Warnings "-register-all".

(** ** Declarations read from [field_operator_ast.py]

    The node classes of the surface tree are declared in
    [functional/ffront/field_operator_ast.py], which the lowering imports as
    [foast].  The lowering reads three things from the operator enumerations:
    the string [value] of a member, the member [UnaryOperator.NOT], and
    identity of members ([is not]).  They are taken as parameters, so that
    every statement below holds for any declaration of the enumerations. *)

(** A Python [StrEnum]: every member has a string [value]. *)
Class StrEnum (A : Type) := value : A → string.

Class Declarations := {
  (** opaque source-location tag carried by every surface node *)
  SourceLocation : Type;
  UnaryOperator : Type;
  UnaryOperator_eq_dec :: EqDecision UnaryOperator;
  UnaryOperator_value :: StrEnum UnaryOperator;
  (** logical not, the member the lowering tests for *)
  NOT : UnaryOperator;
  (** arithmetic negation, a member different from [NOT] *)
  USUB : UnaryOperator;
  USUB_is_not_NOT : USUB ≠ NOT;
  BinaryOperator : Type;
  BinaryOperator_value :: StrEnum BinaryOperator;
  CompareOperator : Type;
  CompareOperator_value :: StrEnum CompareOperator;
}.

(** ** The surface tree *)

Module foast.
Section foast.
Context `{Declarations}.

Inductive Expr : Type :=
| Name (location : SourceLocation) (id : string)
| Subscript (location : SourceLocation) (value : Expr) (index : Z)
| TupleExpr (location : SourceLocation) (elts : list Expr)
| UnaryOp (location : SourceLocation) (op : UnaryOperator) (operand : Expr)
| BinOp (location : SourceLocation) (op : BinaryOperator) (left right : Expr)
| Compare (location : SourceLocation) (op : CompareOperator) (left right : Expr)
| Call (location : SourceLocation) (func : Expr) (args : list Expr).

(** The target of an assignment: a name node, of which the resolver reads
    the [id]. *)
Record Target := { target_location : SourceLocation; target_id : string }.

Inductive Stmt : Type :=
| Assign (location : SourceLocation) (target : Target) (value : Expr)
| Return (location : SourceLocation) (value : Expr).

(** [node.value] and [node.location], attributes of both statement kinds. *)
Definition stmt_value (node : Stmt) : Expr :=
  match node with
  | Assign _ _ v => v
  | Return _ v => v
  end.

Definition stmt_location (node : Stmt) : SourceLocation :=
  match node with
  | Assign l _ _ => l
  | Return l _ => l
  end.

(** A declared symbol: an instance of the class [Symbol] that is not a
    [FieldSymbol] ([BaseSymbol]), or an instance of its subclass
    [FieldSymbol]. *)
Inductive Symbol : Type :=
| BaseSymbol (location : SourceLocation) (id : string)
| FieldSymbol (location : SourceLocation) (id : string).

(** [isinstance(s, foast.FieldSymbol)] *)
Definition isinstance_FieldSymbol (s : Symbol) : bool :=
  match s with
  | FieldSymbol _ _ => true
  | BaseSymbol _ _ => false
  end.


Record FieldOperator := {
  location : SourceLocation;
  id : string;
  params : list Symbol;
  body : list Stmt;
  symtable_ : gmap string Symbol;
}.
End foast.
End foast.

(** ** The target tree *)

Module itir.
Inductive Expr : Type :=
| SymRef (id : string)
| IntLiteral (value : Z)
| FunCall (fun_ : Expr) (args : list Expr).

Inductive Sym : Type := mkSym (id : string).

Record FunctionDefinition := {
  id : string;
  params : list Sym;
  expr : Expr;
}.
End itir.

(** ** AssignResolver

    Both classes derive from [eve.NodeTranslator], of which the sources use
    the method [visit]: it calls the method [visit_] of the class of the node
    where the translator has one. *)

Module AssignResolver.
Section AssignResolver.
Context `{Declarations}.

(** [names or {}]: an empty dictionary is falsy and replaced by a new
    empty dictionary. *)
Definition or_empty (names : gmap string foast.Expr) : gmap string foast.Expr :=
  if decide (names = ∅) then ∅ else names.

Definition visit_Name (location : SourceLocation) (id : string)
    (names : gmap string foast.Expr) : foast.Expr :=
  let names := or_empty names in
  match names !! id with
  | Some e => e
  | None => foast.Name location id
  end.

(** Modelled from the spec: the traversal that [eve.NodeTranslator], which
    is not among the sources, applies to a node for whose class the
    translator has no method.  The resolver replaces the name references
    recursively, everywhere in the value: the node is rebuilt with
    [visit] applied to every child and every other attribute as it is. *)
Definition generic_visit (visit : foast.Expr → foast.Expr) (node : foast.Expr) : foast.Expr :=
  match node with
  | foast.Name l i => foast.Name l i
  | foast.Subscript l v i => foast.Subscript l (visit v) i
  | foast.TupleExpr l elts => foast.TupleExpr l (visit <$> elts)
  | foast.UnaryOp l op e => foast.UnaryOp l op (visit e)
  | foast.BinOp l op a b => foast.BinOp l op (visit a) (visit b)
  | foast.Compare l op a b => foast.Compare l op (visit a) (visit b)
  | foast.Call l f args => foast.Call l (visit f) (visit <$> args)
  end.

(** [visit] on an expression: [visit_Name] on a name, the only expression
    class with a method in the resolver. *)
Fixpoint visit (names : gmap string foast.Expr) (node : foast.Expr) : foast.Expr :=
  match node with
  | foast.Name l i => visit_Name l i names
  | _ => generic_visit (visit names) node
  end.

Definition visit_Assign (target : foast.Target) (value : foast.Expr)
    (names : gmap string foast.Expr) : gmap string foast.Expr :=
  {[ foast.target_id target := visit names value ]}.

(** [names.update(d)]: the entries of [d] win. *)
Definition update (names d : gmap string foast.Expr) : gmap string foast.Expr :=
  d ∪ names.

(** The loop
    [for node in nodes[:-1]: names.update(parser.visit(node, names=names))].
    Only [visit_Assign] returns a dictionary of bindings; a [Return] before
    the last statement is an input of the wrong shape, a violation of the
    precondition, on which the resolution fails. *)
Fixpoint resolve_loop (names : gmap string foast.Expr) (nodes : list foast.Stmt)
    : option (gmap string foast.Expr) :=
  match nodes with
  | [] => Some names
  | foast.Assign _ target value :: rest =>
      resolve_loop (update names (visit_Assign target value names)) rest
  | foast.Return _ _ :: _ => None
  end.

(** [apply]: after the loop over [nodes[:-1]], the value and the location
    of [nodes[-1]] are read, which fails on an empty list. *)
Definition apply (nodes : list foast.Stmt) : option foast.Stmt :=
  names ← resolve_loop ∅ (removelast nodes);
  final ← last nodes;
  Some (foast.Return (foast.stmt_location final)
                     (visit names (foast.stmt_value final))).
End AssignResolver.
End AssignResolver.

(** ** FieldOperatorLowering

    Every method takes the [visit] it calls on the children ([self.visit]
    with the keyword arguments passed on) as its first argument. *)

Module FieldOperatorLowering.
Section FieldOperatorLowering.
Context `{Declarations}.

Definition visit_Return (visit : foast.Expr → itir.Expr) (value : foast.Expr) : itir.Expr :=
  visit value.

Definition visit_FieldSymbol (id : string) : itir.Sym := itir.mkSym id.

Definition visit_Name (id : string) (symtable : gmap string foast.Symbol) : itir.Expr :=
  match symtable !! id with
  | Some s =>
      if foast.isinstance_FieldSymbol s
      then itir.FunCall (itir.SymRef "deref") [itir.SymRef id]
      else itir.SymRef id
  | None => itir.SymRef id
  end.

Definition visit_Subscript (visit : foast.Expr → itir.Expr)
    (value : foast.Expr) (index : Z) : itir.Expr :=
  itir.FunCall (itir.SymRef "tuple_get") [visit value; itir.IntLiteral index].

Definition visit_TupleExpr (visit : foast.Expr → itir.Expr)
    (elts : list foast.Expr) : itir.Expr :=
  itir.FunCall (itir.SymRef "make_tuple") (visit <$> elts).

Definition visit_UnaryOp (visit : foast.Expr → itir.Expr)
    (op : UnaryOperator) (operand : foast.Expr) : itir.Expr :=
  let zero_arg := if decide (op ≠ NOT) then [itir.IntLiteral 0] else [] in
  itir.FunCall (itir.SymRef (value op)) (zero_arg ++ [visit operand]).

Definition visit_BinOp (visit : foast.Expr → itir.Expr)
    (op : BinaryOperator) (left right : foast.Expr) : itir.Expr :=
  itir.FunCall (itir.SymRef (value op)) [visit left; visit right].

Definition visit_Compare (visit : foast.Expr → itir.Expr)
    (op : CompareOperator) (left right : foast.Expr) : itir.Expr :=
  itir.FunCall (itir.SymRef (value op)) [visit left; visit right].

Definition visit_Call (visit : foast.Expr → itir.Expr)
    (func : foast.Expr) (args : list foast.Expr) : itir.Expr :=
  let new_fun :=
    match func with
    | foast.Name _ id => itir.SymRef id
    | _ => visit func
    end in
  itir.FunCall new_fun (visit <$> args).

(** [visit] on an expression: every expression class has its method. *)
Fixpoint visit (symtable : gmap string foast.Symbol) (node : foast.Expr) : itir.Expr :=
  match node with
  | foast.Name _ id => visit_Name id symtable
  | foast.Subscript _ value index => visit_Subscript (visit symtable) value index
  | foast.TupleExpr _ elts => visit_TupleExpr (visit symtable) elts
  | foast.UnaryOp _ op operand => visit_UnaryOp (visit symtable) op operand
  | foast.BinOp _ op lhs rhs => visit_BinOp (visit symtable) op lhs rhs
  | foast.Compare _ op lhs rhs => visit_Compare (visit symtable) op lhs rhs
  | foast.Call _ func args => visit_Call (visit symtable) func args
  end.

(** Modelled from the spec: [visit] of [eve.NodeTranslator], which is not
    among the sources, on a statement.  A [Return] has the method
    [visit_Return]; the lowering has no method for an [Assign], and a node
    kind that the dispatch does not recognise is a fatal error that aborts
    the lowering of the operator. *)
Definition visit_Stmt (symtable : gmap string foast.Symbol) (node : foast.Stmt)
    : option itir.Expr :=
  match node with
  | foast.Return _ value => Some (visit_Return (visit symtable) value)
  | foast.Assign _ _ _ => None
  end.

(** Modelled from the spec: [visit] of [eve.NodeTranslator], which is not
    among the sources, on a parameter.  A [FieldSymbol] has the method
    [visit_FieldSymbol]; what the inherited dispatch and the constructor of
    [itir.FunctionDefinition] make of a symbol of another class is not in
    the sources: every parameter symbol is lowered to a [Sym] with the same
    identifier, without its classification. *)
Definition visit_Symbol (symtable : gmap string foast.Symbol) (node : foast.Symbol)
    : option itir.Sym :=
  match node with
  | foast.FieldSymbol _ id => Some (visit_FieldSymbol id)
  | foast.BaseSymbol _ id => Some (itir.mkSym id)
  end.

Definition body_visit (exprs : list foast.Stmt) (symtable : gmap string foast.Symbol)
    : option itir.Expr :=
  AssignResolver.apply exprs ≫= visit_Stmt symtable.

Definition visit_FieldOperator (node : foast.FieldOperator) : option itir.FunctionDefinition :=
  let symtable := foast.symtable_ node in
  params ← mapM (visit_Symbol symtable) (foast.params node);
  expr ← body_visit (foast.body node) symtable;
  Some {| itir.id := foast.id node; itir.params := params; itir.expr := expr |}.

Definition apply (node : foast.FieldOperator) : option itir.FunctionDefinition :=
  visit_FieldOperator node.
End FieldOperatorLowering.
End FieldOperatorLowering.

(** ** Notions used to state the properties *)

Section notions.
Context `{Declarations}.

(** The child nodes of an expression, in attribute order. *)
Definition children (e : foast.Expr) : list foast.Expr :=
  match e with
  | foast.Name _ _ => []
  | foast.Subscript _ v _ => [v]
  | foast.TupleExpr _ elts => elts
  | foast.UnaryOp _ _ e => [e]
  | foast.BinOp _ _ a b => [a; b]
  | foast.Compare _ _ a b => [a; b]
  | foast.Call _ f args => f :: args
  end.

(** The node reached from [e] by following the child indices of [path]:
    a site in the tree. *)
Fixpoint subterm_at (path : list nat) (e : foast.Expr) : option foast.Expr :=
  match path with
  | [] => Some e
  | i :: path => children e !! i ≫= subterm_at path
  end.

Definition is_Assign (node : foast.Stmt) : bool :=
  match node with
  | foast.Assign _ _ _ => true
  | foast.Return _ _ => false
  end.


(** The names a statement list assigns, in order. *)
Definition targets (nodes : list foast.Stmt) : list string :=
  omap (λ node,
          match node with
          | foast.Assign _ t _ => Some (foast.target_id t)
          | foast.Return _ _ => None
          end) nodes.



(** [e] is a name, either [x] or one of the names in [bound]. *)
Definition is_rename (x : string) (bound : gset string) (e : foast.Expr) : bool :=
  match e with
  | foast.Name _ i => bool_decide (i = x ∨ i ∈ bound)
  | _ => false
  end.

(** A chain of pure renames of [x] ended by a return: every assigned value
    and the returned value are names, each [x] or a name assigned
    before. *)
Fixpoint rename_chain (x : string) (bound : gset string) (nodes : list foast.Stmt) : bool :=
  match nodes with
  | [] => false
  | foast.Return _ v :: rest =>
      match rest with
      | [] => is_rename x bound v
      | _ :: _ => false
      end
  | foast.Assign _ t v :: rest =>
      is_rename x bound v && rename_chain x ({[foast.target_id t]} ∪ bound) rest
  end.

(** The symbol table classifies [id] as a field. *)
Definition is_field (symtable : gmap string foast.Symbol) (id : string) : bool :=
  match symtable !! id with
  | Some s => foast.isinstance_FieldSymbol s
  | None => false
  end.

(** The number of [Name] nodes in value position (every position but the
    target of a call) that the symbol table classifies as fields. *)
Fixpoint field_uses (symtable : gmap string foast.Symbol) (e : foast.Expr) : nat :=
  match e with
  | foast.Name _ i => if is_field symtable i then 1 else 0
  | foast.Subscript _ v _ => field_uses symtable v
  | foast.TupleExpr _ elts => sum_list_with (field_uses symtable) elts
  | foast.UnaryOp _ _ e => field_uses symtable e
  | foast.BinOp _ _ a b => field_uses symtable a + field_uses symtable b
  | foast.Compare _ _ a b => field_uses symtable a + field_uses symtable b
  | foast.Call _ f args =>
      match f with
      | foast.Name _ _ => 0
      | _ => field_uses symtable f
      end + sum_list_with (field_uses symtable) args
  end.

(** 1 when [id] is the identifier [deref]. *)
Definition named_deref (id : string) : nat :=
  if bool_decide (id = "deref") then 1 else 0.

(** The number of nodes that the surface tree itself applies to the symbol
    [deref]: calls of a function of that name, and operators of that
    value. *)
Fixpoint deref_named (e : foast.Expr) : nat :=
  match e with
  | foast.Name _ _ => 0
  | foast.Subscript _ v _ => deref_named v
  | foast.TupleExpr _ elts => sum_list_with deref_named elts
  | foast.UnaryOp _ op e => named_deref (value op) + deref_named e
  | foast.BinOp _ op a b => named_deref (value op) + (deref_named a + deref_named b)
  | foast.Compare _ op a b => named_deref (value op) + (deref_named a + deref_named b)
  | foast.Call _ f args =>
      match f with
      | foast.Name _ i => named_deref i
      | _ => deref_named f
      end + sum_list_with deref_named args
  end.
(** The identifiers of all [Name] nodes of an expression. *)
Fixpoint names_of (e : foast.Expr) : gset string :=
  match e with
  | foast.Name _ i => {[i]}
  | foast.Subscript _ v _ => names_of v
  | foast.TupleExpr _ elts => ⋃ (names_of <$> elts)
  | foast.UnaryOp _ _ e => names_of e
  | foast.BinOp _ _ a b => names_of a ∪ names_of b
  | foast.Compare _ _ a b => names_of a ∪ names_of b
  | foast.Call _ f args => names_of f ∪ ⋃ (names_of <$> args)
  end.

(** The identifiers of the [Name] nodes in value position: every name but
    the bare name that is the target of a call. *)
Fixpoint value_names (e : foast.Expr) : gset string :=
  match e with
  | foast.Name _ i => {[i]}
  | foast.Subscript _ v _ => value_names v
  | foast.TupleExpr _ elts => ⋃ (value_names <$> elts)
  | foast.UnaryOp _ _ e => value_names e
  | foast.BinOp _ _ a b => value_names a ∪ value_names b
  | foast.Compare _ _ a b => value_names a ∪ value_names b
  | foast.Call _ f args =>
      match f with
      | foast.Name _ _ => ∅
      | _ => value_names f
      end ∪ ⋃ (value_names <$> args)
  end.

(** A list of assignments in which every use of a name of [all] comes after
    an assignment of the name: [assigned] are the names assigned so far. *)
Fixpoint defined_before_use (all assigned : gset string) (nodes : list foast.Stmt) : bool :=
  match nodes with
  | [] => true
  | foast.Assign _ t v :: rest =>
      bool_decide (names_of v ∩ all ⊆ assigned)
      && defined_before_use all ({[foast.target_id t]} ∪ assigned) rest
  | foast.Return _ _ :: _ => false
  end.

(** The number of nodes of a surface expression. *)
Fixpoint nodes_count (e : foast.Expr) : nat :=
  match e with
  | foast.Name _ _ => 1
  | foast.Subscript _ v _ => S (nodes_count v)
  | foast.TupleExpr _ elts => S (sum_list_with nodes_count elts)
  | foast.UnaryOp _ _ e => S (nodes_count e)
  | foast.BinOp _ _ a b => S (nodes_count a + nodes_count b)
  | foast.Compare _ _ a b => S (nodes_count a + nodes_count b)
  | foast.Call _ f args => S (nodes_count f + sum_list_with nodes_count args)
  end.

(** The tree with every source location replaced by its image under [g]. *)
Fixpoint relocate (g : SourceLocation → SourceLocation) (e : foast.Expr) : foast.Expr :=
  match e with
  | foast.Name l i => foast.Name (g l) i
  | foast.Subscript l v i => foast.Subscript (g l) (relocate g v) i
  | foast.TupleExpr l elts => foast.TupleExpr (g l) (relocate g <$> elts)
  | foast.UnaryOp l op e => foast.UnaryOp (g l) op (relocate g e)
  | foast.BinOp l op a b => foast.BinOp (g l) op (relocate g a) (relocate g b)
  | foast.Compare l op a b => foast.Compare (g l) op (relocate g a) (relocate g b)
  | foast.Call l f args => foast.Call (g l) (relocate g f) (relocate g <$> args)
  end.

Definition relocate_Stmt (g : SourceLocation → SourceLocation) (node : foast.Stmt)
    : foast.Stmt :=
  match node with
  | foast.Assign l t v =>
      foast.Assign (g l)
        {| foast.target_location := g (foast.target_location t);
           foast.target_id := foast.target_id t |}
        (relocate g v)
  | foast.Return l v => foast.Return (g l) (relocate g v)
  end.

Definition relocate_Symbol (g : SourceLocation → SourceLocation) (s : foast.Symbol)
    : foast.Symbol :=
  match s with
  | foast.BaseSymbol l i => foast.BaseSymbol (g l) i
  | foast.FieldSymbol l i => foast.FieldSymbol (g l) i
  end.

Definition relocate_FieldOperator (g : SourceLocation → SourceLocation)
    (node : foast.FieldOperator) : foast.FieldOperator :=
  {| foast.location := g (foast.location node);
     foast.id := foast.id node;
     foast.params := relocate_Symbol g <$> foast.params node;
     foast.body := relocate_Stmt g <$> foast.body node;
     foast.symtable_ := relocate_Symbol g <$> foast.symtable_ node |}.
(** The string values of the operators of an expression. *)
Fixpoint operator_values (e : foast.Expr) : gset string :=
  match e with
  | foast.Name _ _ => ∅
  | foast.Subscript _ v _ => operator_values v
  | foast.TupleExpr _ elts => ⋃ (operator_values <$> elts)
  | foast.UnaryOp _ op e => {[value op]} ∪ operator_values e
  | foast.BinOp _ op a b => {[value op]} ∪ (operator_values a ∪ operator_values b)
  | foast.Compare _ op a b => {[value op]} ∪ (operator_values a ∪ operator_values b)
  | foast.Call _ f args => operator_values f ∪ ⋃ (operator_values <$> args)
  end.
(** The identifiers of all [Name] nodes in the values of a statement list. *)
Definition body_names (nodes : list foast.Stmt) : gset string :=
  ⋃ ((λ node, names_of (foast.stmt_value node)) <$> nodes).
End notions.

(** 1 when the function position [f] of a call is the symbol [deref]. *)
Definition is_deref (f : itir.Expr) : nat :=
  match f with
  | itir.SymRef i => named_deref i
  | _ => 0
  end.

(** The number of calls of the symbol [deref] in a target tree. *)
Fixpoint deref_calls (e : itir.Expr) : nat :=
  match e with
  | itir.SymRef _ => 0
  | itir.IntLiteral _ => 0
  | itir.FunCall f args => is_deref f + deref_calls f + sum_list_with deref_calls args
  end.

(** The number of nodes of a target tree. *)
Fixpoint size (e : itir.Expr) : nat :=
  match e with
  | itir.SymRef _ => 1
  | itir.IntLiteral _ => 1
  | itir.FunCall f args => S (size f + sum_list_with size args)
  end.

(** The identifiers of the symbol references of a target tree. *)
Fixpoint symrefs (e : itir.Expr) : gset string :=
  match e with
  | itir.SymRef i => {[i]}
  | itir.IntLiteral _ => ∅
  | itir.FunCall f args => symrefs f ∪ ⋃ (symrefs <$> args)
  end.

(** The names of the primitives that the lowering calls by itself. *)
Definition primitives : gset string :=
  {[ "deref"; "tuple_get"; "make_tuple" ]}.

(** ** A declaration of the enumerations

    One declaration of the locations and operator enumerations, on which the
    lowering is run on concrete operators. *)

Module Sample.
Inductive Unary : Type := UADD | UNOT | UNEG.
Inductive Binary : Type := ADD | SUB | MULT | DIV.
Inductive Comparison : Type := GT | LT | EQ.

Definition Unary_eq_dec : EqDecision Unary := ltac:(solve_decision).

Definition Unary_value (op : Unary) : string :=
  match op with UADD => "plus" | UNOT => "not_" | UNEG => "minus" end.
Definition Binary_value (op : Binary) : string :=
  match op with ADD => "plus" | SUB => "minus" | MULT => "multiplies" | DIV => "divides" end.
Definition Comparison_value (op : Comparison) : string :=
  match op with GT => "greater" | LT => "less" | EQ => "eq" end.

Definition UNEG_is_not_UNOT : UNEG ≠ UNOT :=
  λ E, eq_ind UNEG (λ op, match op with UNEG => True | _ => False end) I UNOT E.

(** Locations are (line, column) pairs. *)
Definition declarations : Declarations := {|
  SourceLocation := nat * nat;
  UnaryOperator := Unary;
  UnaryOperator_eq_dec := Unary_eq_dec;
  UnaryOperator_value := Unary_value;
  NOT := UNOT;
  USUB := UNEG;
  USUB_is_not_NOT := UNEG_is_not_UNOT;
  BinaryOperator := Binary;
  BinaryOperator_value := Binary_value;
  CompareOperator := Comparison;
  CompareOperator_value := Comparison_value;
|}.

#[local] Existing Instance declarations.

Definition loc (line column : nat) : SourceLocation := (line, column).

(** [def fieldop(inp: Field[..., "float64"]): return inp] *)
Definition fieldop : foast.FieldOperator := {|
  foast.location := loc 1 0;
  foast.id := "fieldop";
  foast.params := [foast.FieldSymbol (loc 1 12) "inp"];
  foast.body := [foast.Return (loc 2 4) (foast.Name (loc 2 11) "inp")];
  foast.symtable_ := {[ "inp" := foast.FieldSymbol (loc 1 12) "inp" ]};
|}.

(** The same operator with a symbol that is not a field symbol as its
    parameter: [def scalarop(s): return s]. *)
Definition scalarop : foast.FieldOperator := {|
  foast.location := loc 1 0;
  foast.id := "scalarop";
  foast.params := [foast.BaseSymbol (loc 1 13) "s"];
  foast.body := [foast.Return (loc 2 4) (foast.Name (loc 2 11) "s")];
  foast.symtable_ := {[ "s" := foast.BaseSymbol (loc 1 13) "s" ]};
|}.

(** A symbol table with a field [inp] and a symbol [s] of another kind. *)
Definition symtable : gmap string foast.Symbol :=
  <[ "s" := foast.BaseSymbol (loc 1 30) "s" ]>
    {[ "inp" := foast.FieldSymbol (loc 1 12) "inp" ]}.

(** [tmp1 = inp; tmp2 = tmp1; return tmp2] *)
Definition rename_body : list foast.Stmt :=
  [foast.Assign (loc 2 4) {| foast.target_location := loc 2 4; foast.target_id := "tmp1" |}
     (foast.Name (loc 2 11) "inp");
   foast.Assign (loc 3 4) {| foast.target_location := loc 3 4; foast.target_id := "tmp2" |}
     (foast.Name (loc 3 11) "tmp1");
   foast.Return (loc 4 4) (foast.Name (loc 4 11) "tmp2")].

(** [inp + inp], the defining expression of [a] in
    [a = inp + inp; return (a, a)]. *)
Definition sum_inp : foast.Expr :=
  foast.BinOp (loc 2 8) ADD (foast.Name (loc 2 8) "inp") (foast.Name (loc 2 14) "inp").

Definition target_a : foast.Target :=
  {| foast.target_location := loc 2 4; foast.target_id := "a" |}.

Definition pair_of_a : foast.Expr :=
  foast.TupleExpr (loc 3 11) [foast.Name (loc 3 12) "a"; foast.Name (loc 3 15) "a"].
(** [a = b; b = inp; return a]: [b] is used before it is assigned. *)
Definition use_before_definition : list foast.Stmt :=
  [foast.Assign (loc 2 4) target_a (foast.Name (loc 2 8) "b");
   foast.Assign (loc 3 4) {| foast.target_location := loc 3 4; foast.target_id := "b" |}
     (foast.Name (loc 3 8) "inp");
   foast.Return (loc 4 4) (foast.Name (loc 4 11) "a")].

(** [a = inp + inp; b = (a, a)], the assignments of
    [a = inp + inp; b = (a, a); return b[1]]. *)
Definition assignments_in_order : list foast.Stmt :=
  [foast.Assign (loc 2 4) target_a sum_inp;
   foast.Assign (loc 3 4) {| foast.target_location := loc 3 4; foast.target_id := "b" |}
     pair_of_a].

Definition second_of_b : foast.Expr :=
  foast.Subscript (loc 4 11) (foast.Name (loc 4 11) "b") 1.

(** The call [f(inp)] of a name [f] that is not in the symbol table. *)
Definition call_of_f : foast.Expr :=
  foast.Call (loc 2 11) (foast.Name (loc 2 11) "f") [foast.Name (loc 2 13) "inp"].

(** A symbol table that classifies [f] as a field as well. *)
Definition symtable_with_f : gmap string foast.Symbol :=
  <[ "f" := foast.FieldSymbol (loc 1 20) "f" ]> symtable.

End Sample.

(** * Properties *)

Section properties.
Context `{Declarations}.

(** ** Induction over the two trees

    Induction with the hypothesis for every element of a tuple and every
    argument of a call. *)

Lemma foast_Expr_ind (P : foast.Expr → Prop)
  (HName : ∀ l i, P (foast.Name l i))
  (HSubscript : ∀ l v i, P v → P (foast.Subscript l v i))
  (HTupleExpr : ∀ l elts, Forall P elts → P (foast.TupleExpr l elts))
  (HUnaryOp : ∀ l op e, P e → P (foast.UnaryOp l op e))
  (HBinOp : ∀ l op a b, P a → P b → P (foast.BinOp l op a b))
  (HCompare : ∀ l op a b, P a → P b → P (foast.Compare l op a b))
  (HCall : ∀ l f args, P f → Forall P args → P (foast.Call l f args)) :
  ∀ e, P e.
Proof.
  fix IH 1. intros e.
  assert (Hall : ∀ es : list foast.Expr, Forall P es).
  { fix IHs 1. intros [|e' es]; constructor; [apply IH | apply IHs]. }
  destruct e as [l i|l v i|l elts|l op e|l op a b|l op a b|l f args].
  - apply HName.
  - apply HSubscript, IH.
  - apply HTupleExpr, Hall.
  - apply HUnaryOp, IH.
  - apply HBinOp; apply IH.
  - apply HCompare; apply IH.
  - apply HCall; [apply IH | apply Hall].
Qed.

(** Unfolds the methods of the lowering at the head of a visited node. *)
Ltac lowering_methods :=
  cbn [FieldOperatorLowering.visit];
  unfold FieldOperatorLowering.visit_Subscript, FieldOperatorLowering.visit_TupleExpr,
    FieldOperatorLowering.visit_UnaryOp, FieldOperatorLowering.visit_BinOp,
    FieldOperatorLowering.visit_Compare, FieldOperatorLowering.visit_Call.

Lemma sum_list_with_fmap_split {A B} (f : B → nat) (g : A → B) (h k : A → nat) (l : list A) :
  Forall (λ x, f (g x) = h x + k x) l →
  sum_list_with f (g <$> l) = sum_list_with h l + sum_list_with k l.
Proof. induction 1 as [|x xs Hx _ IH]; csimpl; [done | rewrite Hx, IH; lia]. Qed.

(** ** Structural lowering of names *)

Lemma visit_Name_field symtable id s :
  symtable !! id = Some s → foast.isinstance_FieldSymbol s = true →
  FieldOperatorLowering.visit_Name id symtable
  = itir.FunCall (itir.SymRef "deref") [itir.SymRef id].
Proof. unfold FieldOperatorLowering.visit_Name. by intros -> ->. Qed.

Lemma visit_Name_not_field symtable id :
  is_field symtable id = false →
  FieldOperatorLowering.visit_Name id symtable = itir.SymRef id.
Proof.
  unfold FieldOperatorLowering.visit_Name, is_field.
  destruct (symtable !! id) as [s|]; [by intros -> | done].
Qed.

Lemma deref_calls_visit_Name symtable id :
  deref_calls (FieldOperatorLowering.visit_Name id symtable)
  = if is_field symtable id then 1 else 0.
Proof.
  unfold FieldOperatorLowering.visit_Name, is_field.
  destruct (symtable !! id) as [s|]; [|done].
  by destruct (foast.isinstance_FieldSymbol s).
Qed.

(** The calls of [deref] in a lowered tree are counted by the surface tree:
    one for every value use of a field name, and one for every node that
    names [deref] itself. *)
Lemma deref_calls_visit symtable e :
  deref_calls (FieldOperatorLowering.visit symtable e)
  = field_uses symtable e + deref_named e.
Proof.
  induction e as [l i|l v i IH|l elts IH|l op e IH|l op a b IHa IHb
                 |l op a b IHa IHb|l f args IHf IHargs] using foast_Expr_ind.
  - simpl. rewrite deref_calls_visit_Name. lia.
  - simpl. rewrite IH. lia.
  - simpl. by apply sum_list_with_fmap_split.
  - simpl. unfold FieldOperatorLowering.visit_UnaryOp.
    case_decide; simpl; rewrite IH; lia.
  - simpl. rewrite IHa, IHb. lia.
  - simpl. rewrite IHa, IHb. lia.
  - pose proof (sum_list_with_fmap_split _ _ _ _ _ IHargs) as Hargs.
    destruct f as [lf i| | | | | |]; simpl in *;
      rewrite Hargs; try rewrite IHf; simpl; lia.
Qed.

(** C1. A [Name] node lowered in value position becomes
    [FunCall(SymRef("deref"), [SymRef(id)])] when the symbol table holds a
    field symbol for [id], and the plain [SymRef(id)] when it holds a
    symbol of any other kind.  Exactly one [deref] call is inserted per use
    site: the [deref] calls of a lowered tree are the value uses of field
    names in the surface tree, next to the nodes that name [deref]
    themselves. *)
Theorem deref_insertion (symtable : gmap string foast.Symbol) :
  (∀ l id s, symtable !! id = Some s → foast.isinstance_FieldSymbol s = true →
     FieldOperatorLowering.visit symtable (foast.Name l id)
     = itir.FunCall (itir.SymRef "deref") [itir.SymRef id]) ∧
  (∀ l id s, symtable !! id = Some s → foast.isinstance_FieldSymbol s = false →
     FieldOperatorLowering.visit symtable (foast.Name l id) = itir.SymRef id) ∧
  (∀ e, deref_calls (FieldOperatorLowering.visit symtable e)
        = field_uses symtable e + deref_named e).
Proof.
  split; [|split].
  - intros l id s Hs Hfield. simpl. by apply visit_Name_field with s.
  - intros l id s Hs Hfield. simpl. apply visit_Name_not_field.
    unfold is_field. by rewrite Hs.
  - apply deref_calls_visit.
Qed.

(** C9. A [Name] node whose identifier the symbol table does not hold at
    all is lowered, without any error, to the plain [SymRef(id)]. *)
Theorem unclassified_name_passes (symtable : gmap string foast.Symbol) l id :
  symtable !! id = None →
  FieldOperatorLowering.visit symtable (foast.Name l id) = itir.SymRef id.
Proof.
  intros Hnone. simpl. apply visit_Name_not_field. unfold is_field. by rewrite Hnone.
Qed.

(** ** Structural lowering of calls, tuples and operators *)

(** C2. The function position of a lowered call whose target is a bare
    name is [SymRef(func.id)], also when the name is a field, whose value
    use is dereferenced; any other target is lowered recursively; the
    arguments are lowered one by one, in order. *)
Theorem call_target_not_dereferenced (symtable : gmap string foast.Symbol) l args :
  (∀ lf f,
     FieldOperatorLowering.visit symtable (foast.Call l (foast.Name lf f) args)
     = itir.FunCall (itir.SymRef f) (FieldOperatorLowering.visit symtable <$> args)) ∧
  (∀ lf f, is_field symtable f = true →
     FieldOperatorLowering.visit symtable (foast.Name lf f)
     = itir.FunCall (itir.SymRef "deref") [itir.SymRef f]
     ∧ itir.SymRef f ≠ itir.FunCall (itir.SymRef "deref") [itir.SymRef f]) ∧
  (∀ func, (∀ lf f, func ≠ foast.Name lf f) →
     FieldOperatorLowering.visit symtable (foast.Call l func args)
     = itir.FunCall (FieldOperatorLowering.visit symtable func)
                    (FieldOperatorLowering.visit symtable <$> args)) ∧
  (length (FieldOperatorLowering.visit symtable <$> args) = length args ∧
   ∀ i, (FieldOperatorLowering.visit symtable <$> args) !! i
        = FieldOperatorLowering.visit symtable <$> (args !! i)).
Proof.
  split; [done|]. split; [|split; [|split]].
  - intros lf f Hfield. split; [|done]. simpl. unfold is_field in Hfield.
    destruct (symtable !! f) as [s|] eqn:Hs; [|done].
    by apply visit_Name_field with s.
  - intros func Hfunc. destruct func; try done. by destruct (Hfunc location id).
  - apply length_fmap.
  - intros i. apply list_lookup_fmap.
Qed.

(** C5. Negation is lowered to the call of its operator on an integer
    literal zero and the lowered operand, two arguments; logical not is
    lowered to the call of its operator on the lowered operand alone. *)
Theorem negation_desugaring (symtable : gmap string foast.Symbol) l x :
  FieldOperatorLowering.visit symtable (foast.UnaryOp l USUB x)
  = itir.FunCall (itir.SymRef (value USUB))
                 [itir.IntLiteral 0; FieldOperatorLowering.visit symtable x] ∧
  FieldOperatorLowering.visit symtable (foast.UnaryOp l NOT x)
  = itir.FunCall (itir.SymRef (value NOT)) [FieldOperatorLowering.visit symtable x].
Proof.
  simpl. unfold FieldOperatorLowering.visit_UnaryOp. split.
  - rewrite decide_True; [done | apply USUB_is_not_NOT].
  - rewrite decide_False; [done | by intros Hne].
Qed.

(** C10. The integer literal zero is prepended for every unary operator
    other than logical not; logical not gets exactly one argument. *)
Theorem zero_operand_for_all_but_not (symtable : gmap string foast.Symbol) l op x :
  op ≠ NOT →
  FieldOperatorLowering.visit symtable (foast.UnaryOp l op x)
  = itir.FunCall (itir.SymRef (value op))
                 [itir.IntLiteral 0; FieldOperatorLowering.visit symtable x] ∧
  FieldOperatorLowering.visit symtable (foast.UnaryOp l NOT x)
  = itir.FunCall (itir.SymRef (value NOT)) [FieldOperatorLowering.visit symtable x].
Proof.
  intros Hop. simpl. unfold FieldOperatorLowering.visit_UnaryOp. split.
  - by rewrite decide_True.
  - rewrite decide_False; [done | by intros Hne].
Qed.

(** C6. A 2-tuple subscripted at index 1 is lowered to [tuple_get] of the
    [make_tuple] of both lowered elements and the literal 1; the access is
    not folded: the result is never the lowered second element. *)
Theorem tuple_access_not_folded (symtable : gmap string foast.Symbol) l lt a b :
  FieldOperatorLowering.visit symtable
    (foast.Subscript l (foast.TupleExpr lt [a; b]) 1)
  = itir.FunCall (itir.SymRef "tuple_get")
      [itir.FunCall (itir.SymRef "make_tuple")
         [FieldOperatorLowering.visit symtable a; FieldOperatorLowering.visit symtable b];
       itir.IntLiteral 1] ∧
  FieldOperatorLowering.visit symtable
    (foast.Subscript l (foast.TupleExpr lt [a; b]) 1)
  ≠ FieldOperatorLowering.visit symtable b.
Proof.
  split; [done|]. intros Heq. apply (f_equal size) in Heq. simpl in Heq. lia.
Qed.

(** ** The assignment resolver *)

Lemma or_empty_id (names : gmap string foast.Expr) :
  AssignResolver.or_empty names = names.
Proof. unfold AssignResolver.or_empty. by case_decide. Qed.

Lemma visit_Name_bound (names : gmap string foast.Expr) l id e :
  names !! id = Some e → AssignResolver.visit_Name l id names = e.
Proof. unfold AssignResolver.visit_Name. rewrite or_empty_id. by intros ->. Qed.

Lemma visit_Name_free (names : gmap string foast.Expr) l id :
  names !! id = None → AssignResolver.visit_Name l id names = foast.Name l id.
Proof. unfold AssignResolver.visit_Name. rewrite or_empty_id. by intros ->. Qed.

Lemma update_visit_Assign (names : gmap string foast.Expr) t v :
  AssignResolver.update names (AssignResolver.visit_Assign t v names)
  = <[foast.target_id t := AssignResolver.visit names v]> names.
Proof.
  unfold AssignResolver.update, AssignResolver.visit_Assign.
  by rewrite insert_union_singleton_l.
Qed.

Lemma Forall_fmap_id {A} (f : A → A) (l : list A) :
  Forall (λ x, f x = x) l → f <$> l = l.
Proof. induction 1 as [|x xs Hx _ IH]; csimpl; [done | by rewrite Hx, IH]. Qed.

(** Without bindings the resolver rebuilds the expression as it is. *)
Lemma visit_empty e : AssignResolver.visit ∅ e = e.
Proof.
  induction e as [l i|l v i IH|l elts IH|l op e IH|l op a b IHa IHb
                 |l op a b IHa IHb|l f args IHf IHargs] using foast_Expr_ind;
    simpl.
  - by apply visit_Name_free.
  - by rewrite IH.
  - by rewrite Forall_fmap_id.
  - by rewrite IH.
  - by rewrite IHa, IHb.
  - by rewrite IHa, IHb.
  - by rewrite IHf, Forall_fmap_id.
Qed.

(** The children of a rebuilt node are the visited children. *)
Lemma children_visit (names : gmap string foast.Expr) e :
  (∀ l i, e ≠ foast.Name l i) →
  children (AssignResolver.visit names e) = AssignResolver.visit names <$> children e.
Proof. destruct e; try done. intros Hne. by destruct (Hne location id). Qed.

(** Every site of the expression that refers to a bound name holds, after
    the visit, the expression bound to the name. *)
Lemma subterm_at_visit_bound (names : gmap string foast.Expr) path :
  ∀ e l id d, subterm_at path e = Some (foast.Name l id) → names !! id = Some d →
              subterm_at path (AssignResolver.visit names e) = Some d.
Proof.
  induction path as [|i path IH]; intros e l id d Hsite Hd; simpl in *.
  - injection Hsite as ->. simpl. f_equal. by apply visit_Name_bound.
  - destruct (children e !! i) as [c|] eqn:Hc; [|done]. simpl in Hsite.
    rewrite children_visit.
    + rewrite list_lookup_fmap, Hc. simpl. by apply IH with l id.
    + intros l' i' ->. simpl in Hc. by rewrite lookup_nil in Hc.
Qed.

(** Every site that refers to a name without binding keeps the name. *)
Lemma subterm_at_visit_free (names : gmap string foast.Expr) path :
  ∀ e l id, subterm_at path e = Some (foast.Name l id) → names !! id = None →
            subterm_at path (AssignResolver.visit names e) = Some (foast.Name l id).
Proof.
  induction path as [|i path IH]; intros e l id Hsite Hd; simpl in *.
  - injection Hsite as ->. simpl. f_equal. by apply visit_Name_free.
  - destruct (children e !! i) as [c|] eqn:Hc; [|done]. simpl in Hsite.
    rewrite children_visit.
    + rewrite list_lookup_fmap, Hc. simpl. by apply IH.
    + intros l' i' ->. simpl in Hc. by rewrite lookup_nil in Hc.
Qed.

Lemma resolve_loop_app (names : gmap string foast.Expr) xs ys :
  AssignResolver.resolve_loop names (xs ++ ys)
  = AssignResolver.resolve_loop names xs ≫= λ names', AssignResolver.resolve_loop names' ys.
Proof.
  revert names. induction xs as [|[l t v|l v] xs IH]; intros names; simpl; [done| |done].
  apply IH.
Qed.

(** The loop runs through any list of assignments, and leaves the binding
    of a name that none of them assigns as it was. *)
Lemma resolve_loop_assigns (names : gmap string foast.Expr) nodes :
  forallb is_Assign nodes = true →
  ∃ names', AssignResolver.resolve_loop names nodes = Some names' ∧
            ∀ id, id ∉ targets nodes → names' !! id = names !! id.
Proof.
  revert names. induction nodes as [|[l t v|l v] nodes IH]; intros names Hall; simpl in *.
  - by exists names.
  - destruct (IH (AssignResolver.update names (AssignResolver.visit_Assign t v names)) Hall)
      as (names' & Hloop & Hkeep).
    exists names'. split; [done|]. intros id Hid.
    apply not_elem_of_cons in Hid as [Hne Hid].
    rewrite Hkeep, update_visit_Assign by done. by apply lookup_insert_ne.
  - done.
Qed.

(** [apply] on a statement list with a last statement. *)
Lemma apply_snoc nodes final :
  AssignResolver.apply (nodes ++ [final])
  = AssignResolver.resolve_loop ∅ nodes ≫= λ names,
      Some (foast.Return (foast.stmt_location final)
              (AssignResolver.visit names (foast.stmt_value final))).
Proof.
  unfold AssignResolver.apply. by rewrite removelast_last, last_snoc.
Qed.

(** *** Chains of renames *)

(** Where every binding is a name node of [x], a rename of [x] is
    resolved to a name node of [x]. *)
Lemma is_rename_visit x (bound : gset string) (names : gmap string foast.Expr) v :
  dom names = bound →
  (∀ i e, names !! i = Some e → ∃ l, e = foast.Name l x) →
  is_rename x bound v = true →
  ∃ l, AssignResolver.visit names v = foast.Name l x.
Proof.
  intros Hdom Hnames Hv. destruct v as [l i| | | | | |]; try done. simpl in *.
  apply bool_decide_eq_true in Hv.
  destruct (names !! i) as [e|] eqn:Hi.
  - destruct (Hnames i e Hi) as [l' ->]. exists l'. by apply visit_Name_bound.
  - exists l. rewrite visit_Name_free by done.
    destruct Hv as [->|Hin]; [done|].
    rewrite <- Hdom in Hin. apply elem_of_dom in Hin as [e He]. congruence.
Qed.

Lemma rename_chain_resolve x nodes :
  ∀ (bound : gset string) (names : gmap string foast.Expr),
    dom names = bound →
    (∀ i e, names !! i = Some e → ∃ l, e = foast.Name l x) →
    rename_chain x bound nodes = true →
    ∃ names' l final,
      AssignResolver.resolve_loop names (removelast nodes) = Some names' ∧
      last nodes = Some final ∧
      AssignResolver.visit names' (foast.stmt_value final) = foast.Name l x.
Proof.
  induction nodes as [|[la t v|lr v] rest IH]; intros bound names Hdom Hnames Hchain;
    simpl in Hchain; [done| |].
  - apply andb_true_iff in Hchain as [Hv Hrest].
    destruct (is_rename_visit x bound names v Hdom Hnames Hv) as [lx Hx].
    destruct (IH ({[foast.target_id t]} ∪ bound)
                 (<[foast.target_id t := AssignResolver.visit names v]> names))
      as (names' & l & final & Hloop & Hlast & Hfinal); [| |done|].
    + by rewrite dom_insert_L, Hdom.
    + intros i e. rewrite lookup_insert. case_decide.
      * intros [= <-]. by exists lx.
      * apply Hnames.
    + exists names', l, final. destruct rest as [|node rest]; [done|].
      split; [|done]. cbn [removelast AssignResolver.resolve_loop].
      by rewrite update_visit_Assign.
  - destruct rest; [|done].
    destruct (is_rename_visit x bound names v Hdom Hnames Hchain) as [lx Hx].
    by exists names, lx, (foast.Return lr v).
Qed.

(** C3. A body that is a chain of pure renames of a name [x] ended by a
    return is resolved to a [Return] of a name node of [x]: every bound
    name is resolved to its ultimate source, and no assignment is left.
    On [tmp = x; return tmp] and on [a = x; b = a; return b] the returned
    value is the very node [x] of the first assignment. *)
Theorem rename_chain_collapses (x : string) :
  (∀ nodes, rename_chain x ∅ nodes = true →
     ∃ l final, last nodes = Some final ∧
       AssignResolver.apply nodes
       = Some (foast.Return (foast.stmt_location final) (foast.Name l x))) ∧
  (∀ l1 tmp lx l2 l3,
     AssignResolver.apply
       [foast.Assign l1 tmp (foast.Name lx x);
        foast.Return l2 (foast.Name l3 (foast.target_id tmp))]
     = Some (foast.Return l2 (foast.Name lx x))) ∧
  (∀ l1 a lx l2 b la l3 lb,
     AssignResolver.apply
       [foast.Assign l1 a (foast.Name lx x);
        foast.Assign l2 b (foast.Name la (foast.target_id a));
        foast.Return l3 (foast.Name lb (foast.target_id b))]
     = Some (foast.Return l3 (foast.Name lx x))).
Proof.
  split; [|split].
  - intros nodes Hchain.
    destruct (rename_chain_resolve x nodes ∅ ∅) as (names' & l & final & Hloop & Hlast & Hfinal);
      [apply dom_empty_L | by intros i e; rewrite lookup_empty | done |].
    exists l, final. split; [done|].
    unfold AssignResolver.apply. rewrite Hloop, Hlast. simpl. by rewrite Hfinal.
  - intros l1 tmp lx l2 l3. unfold AssignResolver.apply. simpl.
    rewrite update_visit_Assign. simpl.
    rewrite (visit_Name_free ∅) by apply lookup_empty.
    by rewrite (visit_Name_bound _ _ _ (foast.Name lx x)) by apply lookup_insert_eq.
  - intros l1 a lx l2 b la l3 lb. unfold AssignResolver.apply. simpl.
    rewrite !update_visit_Assign. simpl.
    rewrite (visit_Name_free ∅) by apply lookup_empty.
    rewrite (visit_Name_bound _ la _ (foast.Name lx x)) by apply lookup_insert_eq.
    by rewrite (visit_Name_bound _ lb _ (foast.Name lx x)) by apply lookup_insert_eq.
Qed.

(** *** Duplication of a defining expression *)

(** C7. The defining expression of a bound name, with the bindings before
    it substituted, is spliced at every site of the returned expression
    that refers to the name: as many copies as references, no sharing
    through a binding.  The body [a = e; return (a, a)] is resolved to the
    return of a tuple of two copies of [e]. *)
Theorem defining_expression_duplicated :
  (∀ pre names_pre l t e post lr v,
     AssignResolver.resolve_loop ∅ pre = Some names_pre →
     forallb is_Assign post = true →
     foast.target_id t ∉ targets post →
     ∃ v', AssignResolver.apply (pre ++ foast.Assign l t e :: post ++ [foast.Return lr v])
           = Some (foast.Return lr v') ∧
       ∀ path l', subterm_at path v = Some (foast.Name l' (foast.target_id t)) →
                  subterm_at path v' = Some (AssignResolver.visit names_pre e)) ∧
  (∀ l t e lr lt l1 l2,
     AssignResolver.apply
       [foast.Assign l t e;
        foast.Return lr (foast.TupleExpr lt [foast.Name l1 (foast.target_id t);
                                             foast.Name l2 (foast.target_id t)])]
     = Some (foast.Return lr (foast.TupleExpr lt [e; e]))).
Proof.
  split.
  - intros pre names_pre l t e post lr v Hpre Hpost Hfresh.
    set (names1 := <[foast.target_id t := AssignResolver.visit names_pre e]> names_pre).
    destruct (resolve_loop_assigns names1 post Hpost) as (names' & Hloop & Hkeep).
    exists (AssignResolver.visit names' v). split.
    + replace (pre ++ foast.Assign l t e :: post ++ [foast.Return lr v])%list
        with ((pre ++ foast.Assign l t e :: post) ++ [foast.Return lr v])%list
        by (by rewrite <- app_assoc).
      rewrite apply_snoc, resolve_loop_app, Hpre. simpl.
      rewrite update_visit_Assign. fold names1. by rewrite Hloop.
    + intros path l' Hsite. apply subterm_at_visit_bound with l' (foast.target_id t); [done|].
      rewrite Hkeep by done. apply lookup_insert_eq.
  - intros l t e lr lt l1 l2. unfold AssignResolver.apply. simpl.
    rewrite update_visit_Assign, visit_empty.
    by rewrite !(visit_Name_bound _ _ _ e) by apply lookup_insert_eq.
Qed.

(** ** Lowering of an operator *)


(** ** The symbol table in the lowering *)

Lemma visit_Name_is_field symtable id :
  FieldOperatorLowering.visit_Name id symtable
  = if is_field symtable id
    then itir.FunCall (itir.SymRef "deref") [itir.SymRef id]
    else itir.SymRef id.
Proof.
  unfold FieldOperatorLowering.visit_Name, is_field.
  by destruct (symtable !! id).
Qed.

(** The lowering of an expression reads the symbol table only for the
    classification of names as fields. *)
Lemma visit_classification (st1 st2 : gmap string foast.Symbol) e :
  (∀ i, is_field st1 i = is_field st2 i) →
  FieldOperatorLowering.visit st1 e = FieldOperatorLowering.visit st2 e.
Proof.
  intros Hsame.
  induction e as [l i|l v i IH|l elts IH|l op e IH|l op a b IHa IHb
                 |l op a b IHa IHb|l f args IHf IHargs] using foast_Expr_ind;
    lowering_methods.
  - by rewrite !visit_Name_is_field, Hsame.
  - by rewrite IH.
  - f_equal. by apply Forall_fmap_ext.
  - by rewrite IH.
  - by rewrite IHa, IHb.
  - by rewrite IHa, IHb.
  - f_equal; [by destruct f | by apply Forall_fmap_ext].
Qed.

Lemma visit_FieldOperator_classification (node1 node2 : foast.FieldOperator) :
  foast.id node1 = foast.id node2 →
  foast.params node1 = foast.params node2 →
  foast.body node1 = foast.body node2 →
  (∀ i, is_field (foast.symtable_ node1) i = is_field (foast.symtable_ node2) i) →
  FieldOperatorLowering.apply node1 = FieldOperatorLowering.apply node2.
Proof.
  intros Hid Hparams Hbody Hsame.
  unfold FieldOperatorLowering.apply, FieldOperatorLowering.visit_FieldOperator,
    FieldOperatorLowering.body_visit.
  rewrite Hid, Hparams, Hbody.
  assert (Hps : ∀ ps, mapM (FieldOperatorLowering.visit_Symbol (foast.symtable_ node1)) ps
                    = mapM (FieldOperatorLowering.visit_Symbol (foast.symtable_ node2)) ps)
    by done.
  rewrite Hps. destruct (mapM _ _) as [params|]; [|done]. simpl.
  destruct (AssignResolver.apply (foast.body node2)) as [[l t v|l v]|]; [done| |done].
  simpl. unfold FieldOperatorLowering.visit_Return.
  by rewrite (visit_classification _ (foast.symtable_ node2)).
Qed.

End properties.

(** * The lowering on concrete operators *)

Section concrete.
#[local] Existing Instance Sample.declarations.

(** The operator of the documentation of [FieldOperatorLowering]. *)
Example fieldop_lowered :
  FieldOperatorLowering.apply Sample.fieldop
  = Some {| itir.id := "fieldop";
            itir.params := [itir.mkSym "inp"];
            itir.expr := itir.FunCall (itir.SymRef "deref") [itir.SymRef "inp"] |}.
Proof. vm_compute. reflexivity. Qed.

(** The body of the documentation of [AssignResolver]. *)
Example rename_body_resolved :
  AssignResolver.apply Sample.rename_body
  = Some (foast.Return (Sample.loc 4 4) (foast.Name (Sample.loc 2 11) "inp")).
Proof. vm_compute. reflexivity. Qed.

Example negation_lowered :
  FieldOperatorLowering.visit Sample.symtable
    (foast.UnaryOp (Sample.loc 2 11) Sample.UNEG (foast.Name (Sample.loc 2 12) "s"))
  = itir.FunCall (itir.SymRef "minus") [itir.IntLiteral 0; itir.SymRef "s"].
Proof. vm_compute. reflexivity. Qed.

(** In a table with the field [inp] and the symbol [s], [inp] is
    dereferenced, [s] is not, and [inp + inp] has two [deref] calls. *)
Lemma deref_insertion_witness :
  FieldOperatorLowering.visit Sample.symtable (foast.Name (Sample.loc 2 11) "inp")
  = itir.FunCall (itir.SymRef "deref") [itir.SymRef "inp"] ∧
  FieldOperatorLowering.visit Sample.symtable (foast.Name (Sample.loc 2 11) "s")
  = itir.SymRef "s" ∧
  deref_calls (FieldOperatorLowering.visit Sample.symtable Sample.sum_inp) = 2.
Proof.
  destruct (deref_insertion Sample.symtable) as (Hfield & Hother & Hcount).
  split; [|split].
  - apply (Hfield _ _ (foast.FieldSymbol (Sample.loc 1 12) "inp")); reflexivity.
  - apply (Hother _ _ (foast.BaseSymbol (Sample.loc 1 30) "s")); reflexivity.
  - rewrite Hcount. reflexivity.
Defined.

(** The table does not hold [x]. *)
Lemma unclassified_name_passes_witness :
  Sample.symtable !! "x" = None ∧
  FieldOperatorLowering.visit Sample.symtable (foast.Name (Sample.loc 2 11) "x")
  = itir.SymRef "x".
Proof.
  split; [reflexivity|].
  apply (unclassified_name_passes Sample.symtable (Sample.loc 2 11) "x"). reflexivity.
Defined.

(** The call [inp(inp)] of the field [inp], and a call of a tuple. *)
Lemma call_target_not_dereferenced_witness :
  is_field Sample.symtable "inp" = true ∧
  FieldOperatorLowering.visit Sample.symtable
    (foast.Call (Sample.loc 2 11) (foast.Name (Sample.loc 2 11) "inp")
       [foast.Name (Sample.loc 2 15) "inp"])
  = itir.FunCall (itir.SymRef "inp")
      [itir.FunCall (itir.SymRef "deref") [itir.SymRef "inp"]] ∧
  FieldOperatorLowering.visit Sample.symtable
    (foast.Call (Sample.loc 2 11) Sample.pair_of_a [foast.Name (Sample.loc 2 15) "inp"])
  = itir.FunCall (FieldOperatorLowering.visit Sample.symtable Sample.pair_of_a)
      [itir.FunCall (itir.SymRef "deref") [itir.SymRef "inp"]].
Proof.
  destruct (call_target_not_dereferenced Sample.symtable (Sample.loc 2 11)
              [foast.Name (Sample.loc 2 15) "inp"]) as (Hname & Hfield & Hother & _).
  split; [reflexivity|]. split.
  - rewrite Hname. simpl.
    destruct (Hfield (Sample.loc 2 15) "inp") as [Hderef _]; [reflexivity|].
    simpl in Hderef. rewrite Hderef. reflexivity.
  - rewrite (Hother Sample.pair_of_a); [|discriminate]. simpl.
    destruct (Hfield (Sample.loc 2 15) "inp") as [Hderef _]; [reflexivity|].
    simpl in Hderef. rewrite Hderef. reflexivity.
Defined.

(** Unary plus gets the zero operand as well. *)
Lemma zero_operand_for_all_but_not_witness :
  Sample.UADD ≠ NOT ∧
  FieldOperatorLowering.visit Sample.symtable
    (foast.UnaryOp (Sample.loc 2 11) Sample.UADD (foast.Name (Sample.loc 2 12) "s"))
  = itir.FunCall (itir.SymRef "plus") [itir.IntLiteral 0; itir.SymRef "s"].
Proof.
  assert (Hop : Sample.UADD ≠ NOT) by discriminate.
  split; [exact Hop|].
  apply (zero_operand_for_all_but_not Sample.symtable (Sample.loc 2 11) Sample.UADD
           (foast.Name (Sample.loc 2 12) "s") Hop).
Defined.

(** [tmp1 = inp; tmp2 = tmp1; return tmp2] is a chain of renames of [inp]. *)
Lemma rename_chain_collapses_witness :
  rename_chain "inp" ∅ Sample.rename_body = true ∧
  ∃ l final, last Sample.rename_body = Some final ∧
    AssignResolver.apply Sample.rename_body
    = Some (foast.Return (foast.stmt_location final) (foast.Name l "inp")).
Proof.
  split; [vm_compute; reflexivity|].
  apply (proj1 (rename_chain_collapses "inp")). vm_compute. reflexivity.
Defined.

(** [a = inp + inp; return (a, a)]: both elements of the returned tuple
    are [inp + inp]. *)
Lemma defining_expression_duplicated_witness :
  ∃ v', AssignResolver.apply
          [foast.Assign (Sample.loc 2 4) Sample.target_a Sample.sum_inp;
           foast.Return (Sample.loc 3 4) Sample.pair_of_a]
        = Some (foast.Return (Sample.loc 3 4) v') ∧
    subterm_at [0] v' = Some Sample.sum_inp ∧
    subterm_at [1] v' = Some Sample.sum_inp.
Proof.
  destruct (proj1 defining_expression_duplicated [] ∅ (Sample.loc 2 4) Sample.target_a
              Sample.sum_inp [] (Sample.loc 3 4) Sample.pair_of_a)
    as (v' & Happly & Hsites).
  - reflexivity.
  - reflexivity.
  - apply not_elem_of_nil.
  - exists v'. split; [exact Happly|]. split.
    + apply (Hsites [0] (Sample.loc 3 12)). reflexivity.
    + apply (Hsites [1] (Sample.loc 3 15)). reflexivity.
Defined.

(** An operator with a parameter that is not a field:
    [def scalarop(s): return s]. *)
Example scalarop_lowered :
  FieldOperatorLowering.apply Sample.scalarop
  = Some {| itir.id := "scalarop";
            itir.params := [itir.mkSym "s"];
            itir.expr := itir.SymRef "s" |}.
Proof. vm_compute. reflexivity. Qed.
End concrete.

(** * Further properties of the resolver and of the lowering *)

Set Warnings "-clear-no-such-hyp".

Section further_properties.
Context `{Declarations}.

(** Unfolds the method of the lowering at the head of a visited node. *)
Ltac unfold_lowering :=
  cbn [FieldOperatorLowering.visit];
  unfold FieldOperatorLowering.visit_Subscript, FieldOperatorLowering.visit_TupleExpr,
    FieldOperatorLowering.visit_UnaryOp, FieldOperatorLowering.visit_BinOp,
    FieldOperatorLowering.visit_Compare, FieldOperatorLowering.visit_Call.

Lemma Forall_mp {A} (P Q : A → Prop) (l : list A) :
  Forall (λ x, P x → Q x) l → Forall P l → Forall Q l.
Proof.
  induction 1 as [|x l Hx _ IH]; intros HP; [constructor|].
  apply Forall_cons in HP as [HPx HPl]. constructor; [by apply Hx | by apply IH].
Qed.

(** ** Identifiers of an expression *)

Lemma union_list_fmap_disjoint {A} (f : A → gset string) (l : list A) (D : gset string) :
  ⋃ (f <$> l) ## D ↔ Forall (λ x, f x ## D) l.
Proof.
  induction l as [|x l IH]; csimpl.
  - split; [constructor | set_solver].
  - rewrite Forall_cons, <- IH. set_solver.
Qed.

Lemma union_list_fmap_subseteq {A} (f : A → gset string) (l : list A) (D : gset string) :
  ⋃ (f <$> l) ⊆ D ↔ Forall (λ x, f x ⊆ D) l.
Proof.
  induction l as [|x l IH]; csimpl.
  - split; [constructor | set_solver].
  - rewrite Forall_cons, <- IH. set_solver.
Qed.

(** ** Bindings and identifiers *)

(** The loop binds the targets of the assignments, and only them. *)
Lemma resolve_loop_dom nodes :
  ∀ names names' : gmap string foast.Expr,
    AssignResolver.resolve_loop names nodes = Some names' →
    dom names' = dom names ∪ list_to_set (targets nodes).
Proof.
  induction nodes as [|[l t v|l v] nodes IH]; intros names names' Hloop; simpl in *.
  - injection Hloop as <-. set_solver.
  - apply IH in Hloop. rewrite Hloop, update_visit_Assign, dom_insert_L. set_solver.
  - done.
Qed.

(** An expression without a bound name is rebuilt as it is. *)
Lemma visit_unreferenced (names : gmap string foast.Expr) e :
  names_of e ## dom names → AssignResolver.visit names e = e.
Proof.
  induction e as [l i|l v i IH|l elts IH|l op e IH|l op a b IHa IHb
                 |l op a b IHa IHb|l f args IHf IHargs] using foast_Expr_ind;
    simpl; intros Hfree.
  - apply visit_Name_free, not_elem_of_dom. set_solver.
  - by rewrite IH.
  - rewrite Forall_fmap_id; [done|].
    apply union_list_fmap_disjoint in Hfree. by apply (Forall_mp _ _ _ IH).
  - by rewrite IH.
  - rewrite IHa, IHb; [done|set_solver..].
  - rewrite IHa, IHb; [done|set_solver..].
  - rewrite IHf by set_solver. rewrite Forall_fmap_id; [done|].
    assert (Hargs : ⋃ (names_of <$> args) ## dom names) by set_solver.
    apply union_list_fmap_disjoint in Hargs. by apply (Forall_mp _ _ _ IHargs).
Qed.

(** ** Shape of the input of the resolver *)

(** X1. With only assignments before the last statement, [apply] returns a
    result exactly when the statement list is not empty: it reads the last
    statement, also when the list has no other. *)
Theorem apply_needs_last_statement (nodes : list foast.Stmt) :
  forallb is_Assign (removelast nodes) = true →
  (is_Some (AssignResolver.apply nodes) ↔ nodes ≠ []).
Proof.
  destruct nodes as [|final assigns _] using rev_ind; intros Hassigns.
  - split; [by intros [r Hr] | done].
  - rewrite removelast_last in Hassigns.
    destruct (resolve_loop_assigns ∅ assigns Hassigns) as (names & Hloop & _).
    rewrite apply_snoc, Hloop. simpl. split; [|by eexists].
    intros _ Hnil. by apply app_nil in Hnil as [_ ?].
Qed.

(** X2. [apply] does not test the class of the last statement: of a last
    statement that is an assignment it reads the value and the location, and
    returns what it returns for a [Return] of that value. *)
Theorem last_assignment_taken_as_return (assigns : list foast.Stmt) l t v :
  AssignResolver.apply (assigns ++ [foast.Assign l t v])
  = AssignResolver.apply (assigns ++ [foast.Return l v]).
Proof. by rewrite !apply_snoc. Qed.

(** X3. Resolving is idempotent: the statement that [apply] returns is, as
    a body of its own, resolved to itself. *)
Theorem apply_idempotent (nodes : list foast.Stmt) r :
  AssignResolver.apply nodes = Some r → AssignResolver.apply [r] = Some r.
Proof.
  unfold AssignResolver.apply at 1. intros Hr.
  destruct (AssignResolver.resolve_loop ∅ (removelast nodes)) as [names|]; [|done].
  destruct (last nodes) as [final|]; [|done].
  injection Hr as <-. unfold AssignResolver.apply. simpl. by rewrite visit_empty.
Qed.

(** ** Names that the body does not assign, and names that it does *)

(** X4. A returned value that refers to none of the assigned names is
    returned as it is: assignments without a reference leave no trace. *)
Theorem unreferenced_assignments_dropped (assigns : list foast.Stmt) lr v :
  forallb is_Assign assigns = true →
  names_of v ## list_to_set (targets assigns) →
  AssignResolver.apply (assigns ++ [foast.Return lr v]) = Some (foast.Return lr v).
Proof.
  intros Hassigns Hfree.
  destruct (resolve_loop_assigns ∅ assigns Hassigns) as (names & Hloop & _).
  rewrite apply_snoc, Hloop. simpl. rewrite visit_unreferenced; [done|].
  rewrite (resolve_loop_dom _ _ _ Hloop), dom_empty_L. set_solver.
Qed.

(** X5. Every site of the returned value that refers to a name that the
    body does not assign keeps its name node, location included. *)
Theorem free_name_kept (assigns : list foast.Stmt) lr v path l id :
  forallb is_Assign assigns = true →
  id ∉ targets assigns →
  subterm_at path v = Some (foast.Name l id) →
  ∃ v', AssignResolver.apply (assigns ++ [foast.Return lr v]) = Some (foast.Return lr v') ∧
        subterm_at path v' = Some (foast.Name l id).
Proof.
  intros Hassigns Hid Hsite.
  destruct (resolve_loop_assigns ∅ assigns Hassigns) as (names & Hloop & Hkeep).
  exists (AssignResolver.visit names v). rewrite apply_snoc, Hloop. split; [done|].
  apply subterm_at_visit_free; [done|]. by rewrite Hkeep, lookup_empty.
Qed.

Lemma names_of_visit_closed (T : gset string) (names : gmap string foast.Expr) e :
  (∀ i d, names !! i = Some d → names_of d ## T) →
  names_of e ∩ T ⊆ dom names →
  names_of (AssignResolver.visit names e) ## T.
Proof.
  intros Hnames.
  induction e as [l i|l v i IH|l elts IH|l op e IH|l op a b IHa IHb
                 |l op a b IHa IHb|l f args IHf IHargs] using foast_Expr_ind;
    simpl; intros Huse.
  - destruct (names !! i) as [d|] eqn:Hi.
    + rewrite (visit_Name_bound _ _ _ d) by done. by apply Hnames with i.
    + rewrite visit_Name_free by done. simpl.
      apply not_elem_of_dom in Hi. set_solver.
  - by apply IH.
  - apply union_list_fmap_disjoint, Forall_fmap. apply (Forall_mp _ _ _ IH).
    pose proof (proj1 (union_list_fmap_subseteq names_of elts _) (reflexivity _)) as Hsub.
    eapply Forall_impl; [exact Hsub|]. intros x Hx. simpl in *. set_solver.
  - by apply IH.
  - apply disjoint_union_l. split; [apply IHa | apply IHb]; set_solver.
  - apply disjoint_union_l. split; [apply IHa | apply IHb]; set_solver.
  - apply disjoint_union_l. split; [apply IHf; set_solver|].
    apply union_list_fmap_disjoint, Forall_fmap. apply (Forall_mp _ _ _ IHargs).
    pose proof (proj1 (union_list_fmap_subseteq names_of args _) (reflexivity _)) as Hsub.
    eapply Forall_impl; [exact Hsub|]. intros x Hx. simpl in *. set_solver.
Qed.

Lemma resolve_loop_closed (T : gset string) nodes :
  ∀ names : gmap string foast.Expr,
    (∀ i d, names !! i = Some d → names_of d ## T) →
    defined_before_use T (dom names) nodes = true →
    ∃ names', AssignResolver.resolve_loop names nodes = Some names' ∧
              ∀ i d, names' !! i = Some d → names_of d ## T.
Proof.
  induction nodes as [|[l t v|l v] nodes IH]; intros names Hnames Huse; simpl in *.
  - by exists names.
  - apply andb_true_iff in Huse as [Hv Hrest]. apply bool_decide_eq_true in Hv.
    rewrite update_visit_Assign. apply IH.
    + intros i d. rewrite lookup_insert. case_decide.
      * intros [= <-]. by apply names_of_visit_closed.
      * apply Hnames.
    + by rewrite dom_insert_L.
  - done.
Qed.

(** X6. Where every use of an assigned name comes after an assignment of
    the name, the resolved value refers to no assigned name: all bindings
    of the body are inlined. *)
Theorem assigned_names_eliminated (assigns : list foast.Stmt) lr v :
  defined_before_use (list_to_set (targets assigns)) ∅ assigns = true →
  ∃ v', AssignResolver.apply (assigns ++ [foast.Return lr v]) = Some (foast.Return lr v') ∧
        names_of v' ## list_to_set (targets assigns).
Proof.
  intros Huse.
  destruct (resolve_loop_closed (list_to_set (targets assigns)) assigns ∅)
    as (names & Hloop & Hclosed).
  - intros i d. by rewrite lookup_empty.
  - by rewrite dom_empty_L.
  - exists (AssignResolver.visit names v). rewrite apply_snoc, Hloop. split; [done|].
    apply names_of_visit_closed; [done|].
    rewrite (resolve_loop_dom _ _ _ Hloop), dom_empty_L. set_solver.
Qed.

(** X7. The resolver makes one pass: the value of an assignment is
    substituted with the bindings before it only.  A name in it that is
    assigned later, or by the assignment itself, stays a name in the
    resolved value of the target. *)
Theorem later_assignment_not_substituted
    (pre post : list foast.Stmt) l t e lr lv path lb b :
  forallb is_Assign pre = true →
  forallb is_Assign post = true →
  b ∉ targets pre →
  foast.target_id t ∉ targets post →
  subterm_at path e = Some (foast.Name lb b) →
  ∃ d, AssignResolver.apply
         (pre ++ foast.Assign l t e
              :: post ++ [foast.Return lr (foast.Name lv (foast.target_id t))])
       = Some (foast.Return lr d) ∧
       subterm_at path d = Some (foast.Name lb b).
Proof.
  intros Hpre Hpost Hb Ht Hsite.
  destruct (resolve_loop_assigns ∅ pre Hpre) as (names_pre & Hloop_pre & Hkeep_pre).
  set (d := AssignResolver.visit names_pre e).
  destruct (resolve_loop_assigns (<[foast.target_id t := d]> names_pre) post Hpost)
    as (names & Hloop & Hkeep).
  exists d. split.
  - replace (pre ++ foast.Assign l t e
                 :: post ++ [foast.Return lr (foast.Name lv (foast.target_id t))])%list
      with ((pre ++ foast.Assign l t e :: post)
              ++ [foast.Return lr (foast.Name lv (foast.target_id t))])%list
      by (by rewrite <- app_assoc).
    rewrite apply_snoc, resolve_loop_app, Hloop_pre. simpl.
    rewrite update_visit_Assign. fold d. rewrite Hloop. simpl.
    rewrite (visit_Name_bound _ _ _ d); [done|].
    rewrite Hkeep by done. apply lookup_insert_eq.
  - apply subterm_at_visit_free; [done|]. by rewrite Hkeep_pre, lookup_empty.
Qed.

(** ** The lowering of a resolved body *)

(** X8. The lowering of a chain of renames of [x] is the lowering of the
    name [x]: one [deref] call when [x] is a field, none otherwise, and the
    classification of the names in between is not read. *)
Theorem rename_chain_lowered (x : string) (nodes : list foast.Stmt)
    (symtable : gmap string foast.Symbol) :
  rename_chain x ∅ nodes = true →
  FieldOperatorLowering.body_visit nodes symtable
  = Some (FieldOperatorLowering.visit_Name x symtable).
Proof.
  intros Hchain.
  destruct (rename_chain_resolve x nodes ∅ ∅) as (names' & l & final & Hloop & Hlast & Hfinal);
    [apply dom_empty_L | by intros i e; rewrite lookup_empty | done |].
  unfold FieldOperatorLowering.body_visit, AssignResolver.apply.
  rewrite Hloop, Hlast. simpl. by rewrite Hfinal.
Qed.

(** ** What the lowering reads *)

(** X9. The lowering of an expression reads the classification of the names
    in value position only: two symbol tables that classify these names
    alike give the same tree, whatever they hold for the target of a
    call and for names that do not occur. *)
Theorem lowering_reads_value_names (st1 st2 : gmap string foast.Symbol) e :
  (∀ i, i ∈ value_names e → is_field st1 i = is_field st2 i) →
  FieldOperatorLowering.visit st1 e = FieldOperatorLowering.visit st2 e.
Proof.
  induction e as [l i|l v i IH|l elts IH|l op e IH|l op a b IHa IHb
                 |l op a b IHa IHb|l f args IHf IHargs] using foast_Expr_ind;
    intros Hsame; unfold_lowering; simpl in Hsame.
  - rewrite !visit_Name_is_field, Hsame; [done|set_solver].
  - by rewrite IH.
  - f_equal. apply Forall_fmap_ext. apply (Forall_mp _ _ _ IH).
    pose proof (proj1 (union_list_fmap_subseteq value_names elts _) (reflexivity _)) as Hsub.
    eapply Forall_impl; [exact Hsub|]. intros x Hx i Hi. apply Hsame. set_solver.
  - by rewrite IH.
  - rewrite IHa, IHb; [done|intros i Hi; apply Hsame; set_solver..].
  - rewrite IHa, IHb; [done|intros i Hi; apply Hsame; set_solver..].
  - f_equal.
    + destruct f; try done; apply IHf; intros i Hi; apply Hsame; set_solver.
    + apply Forall_fmap_ext. apply (Forall_mp _ _ _ IHargs).
      pose proof (proj1 (union_list_fmap_subseteq value_names args _) (reflexivity _)) as Hsub.
      eapply Forall_impl; [exact Hsub|]. intros x Hx i Hi. apply Hsame. set_solver.
Qed.

(** X10. The lowered tree has at least as many nodes as the surface
    expression and at most three times as many. *)
Theorem lowering_linear (symtable : gmap string foast.Symbol) e :
  (nodes_count e ≤ size (FieldOperatorLowering.visit symtable e))%nat
  ∧ (size (FieldOperatorLowering.visit symtable e) ≤ 3 * nodes_count e)%nat.
Proof.
  induction e as [l i|l v i IH|l elts IH|l op e IH|l op a b IHa IHb
                 |l op a b IHa IHb|l f args IHf IHargs] using foast_Expr_ind;
    unfold_lowering.
  - rewrite visit_Name_is_field. destruct (is_field symtable i); simpl; lia.
  - simpl. lia.
  - simpl. induction IH as [|x xs Hx _ IHxs]; csimpl in *; lia.
  - case_decide; simpl; lia.
  - simpl. lia.
  - simpl. lia.
  - assert (Hargs :
      (sum_list_with nodes_count args
       ≤ sum_list_with size (FieldOperatorLowering.visit symtable <$> args))%nat
      ∧ (sum_list_with size (FieldOperatorLowering.visit symtable <$> args)
         ≤ 3 * sum_list_with nodes_count args)%nat).
    { clear IHf. induction IHargs as [|x xs Hx _ IHxs]; csimpl in *; lia. }
    destruct f; simpl in *; lia.
Qed.

(** ** Source locations *)

Lemma lowering_visit_relocate (g : SourceLocation → SourceLocation)
    (symtable : gmap string foast.Symbol) e :
  FieldOperatorLowering.visit symtable (relocate g e)
  = FieldOperatorLowering.visit symtable e.
Proof.
  induction e as [l i|l v i IH|l elts IH|l op e IH|l op a b IHa IHb
                 |l op a b IHa IHb|l f args IHf IHargs] using foast_Expr_ind;
    cbn [relocate]; unfold_lowering.
  - done.
  - by rewrite IH.
  - f_equal. rewrite <- list_fmap_compose. by apply Forall_fmap_ext.
  - by rewrite IH.
  - by rewrite IHa, IHb.
  - by rewrite IHa, IHb.
  - f_equal.
    + destruct f; try done; apply IHf.
    + rewrite <- list_fmap_compose. by apply Forall_fmap_ext.
Qed.

Lemma is_field_relocate (g : SourceLocation → SourceLocation)
    (symtable : gmap string foast.Symbol) i :
  is_field (relocate_Symbol g <$> symtable) i = is_field symtable i.
Proof.
  unfold is_field. rewrite lookup_fmap.
  by destruct (symtable !! i) as [[? ?|? ?]|].
Qed.

Lemma resolver_visit_relocate (g : SourceLocation → SourceLocation)
    (names : gmap string foast.Expr) e :
  AssignResolver.visit (relocate g <$> names) (relocate g e)
  = relocate g (AssignResolver.visit names e).
Proof.
  induction e as [l i|l v i IH|l elts IH|l op e IH|l op a b IHa IHb
                 |l op a b IHa IHb|l f args IHf IHargs] using foast_Expr_ind;
    simpl.
  - unfold AssignResolver.visit_Name. rewrite !or_empty_id, lookup_fmap.
    by destruct (names !! i).
  - by rewrite IH.
  - f_equal. rewrite <- !list_fmap_compose. by apply Forall_fmap_ext.
  - by rewrite IH.
  - by rewrite IHa, IHb.
  - by rewrite IHa, IHb.
  - rewrite IHf. f_equal. rewrite <- !list_fmap_compose. by apply Forall_fmap_ext.
Qed.

Lemma resolve_loop_relocate (g : SourceLocation → SourceLocation)
    (nodes : list foast.Stmt) :
  ∀ names : gmap string foast.Expr,
    AssignResolver.resolve_loop (relocate g <$> names) (relocate_Stmt g <$> nodes)
    = fmap (M := gmap string) (relocate g) <$> AssignResolver.resolve_loop names nodes.
Proof.
  induction nodes as [|[l t v|l v] nodes IH]; intros names; csimpl; [done| |done].
  rewrite !update_visit_Assign. simpl.
  by rewrite resolver_visit_relocate, <- fmap_insert, IH.
Qed.

Lemma apply_relocate (g : SourceLocation → SourceLocation) (nodes : list foast.Stmt) :
  AssignResolver.apply (relocate_Stmt g <$> nodes)
  = relocate_Stmt g <$> AssignResolver.apply nodes.
Proof.
  destruct nodes as [|final assigns _] using rev_ind; [done|].
  rewrite fmap_app. csimpl. rewrite !apply_snoc.
  pose proof (resolve_loop_relocate g assigns ∅) as Hloop.
  rewrite fmap_empty in Hloop. rewrite Hloop.
  destruct (AssignResolver.resolve_loop ∅ assigns) as [names|]; [|done]. simpl.
  by destruct final; simpl; rewrite resolver_visit_relocate.
Qed.

Lemma visit_Symbol_relocate (g : SourceLocation → SourceLocation)
    (st1 st2 : gmap string foast.Symbol) (params : list foast.Symbol) :
  mapM (FieldOperatorLowering.visit_Symbol st1) (relocate_Symbol g <$> params)
  = mapM (FieldOperatorLowering.visit_Symbol st2) params.
Proof.
  destruct (mapM (FieldOperatorLowering.visit_Symbol st2) params) as [syms|] eqn:Hsyms.
  - apply mapM_Some in Hsyms. apply mapM_Some, Forall2_fmap_l.
    eapply Forall2_impl; [exact Hsyms|]. by intros [? ?|? ?] y.
  - apply mapM_None in Hsyms. apply mapM_None, Exists_fmap.
    eapply Exists_impl; [exact Hsyms|]. by intros [? ?|? ?].
Qed.

(** X11. The lowering reads no source location: an operator with every
    location of its parameters, body and symbol table replaced is lowered
    to the same result. *)
Theorem lowering_ignores_locations (g : SourceLocation → SourceLocation)
    (node : foast.FieldOperator) :
  FieldOperatorLowering.apply (relocate_FieldOperator g node)
  = FieldOperatorLowering.apply node.
Proof.
  unfold FieldOperatorLowering.apply, FieldOperatorLowering.visit_FieldOperator,
    FieldOperatorLowering.body_visit.
  cbn [relocate_FieldOperator foast.symtable_ foast.params foast.body foast.id].
  rewrite (visit_Symbol_relocate g _ (foast.symtable_ node)), apply_relocate.
  destruct (mapM _ (foast.params node)) as [params|]; [|done]. simpl.
  destruct (AssignResolver.apply (foast.body node)) as [[l t v|l v]|]; [done| |done].
  simpl. unfold FieldOperatorLowering.visit_Return.
  rewrite lowering_visit_relocate.
  by rewrite (visit_classification _ (foast.symtable_ node))
    by apply is_field_relocate.
Qed.

(** ** Identifiers of the lowered tree *)

Lemma symrefs_visit_Name (symtable : gmap string foast.Symbol) i :
  {[i]} ⊆ symrefs (FieldOperatorLowering.visit_Name i symtable)
  ∧ symrefs (FieldOperatorLowering.visit_Name i symtable) ⊆ {[i]} ∪ primitives.
Proof.
  rewrite visit_Name_is_field. unfold primitives.
  destruct (is_field symtable i); simpl; set_solver.
Qed.

Lemma symrefs_visit_list (symtable : gmap string foast.Symbol) (es : list foast.Expr) :
  Forall (λ e, names_of e ⊆ symrefs (FieldOperatorLowering.visit symtable e)
               ∧ symrefs (FieldOperatorLowering.visit symtable e)
                 ⊆ names_of e ∪ operator_values e ∪ primitives) es →
  ⋃ (names_of <$> es) ⊆ ⋃ (symrefs <$> (FieldOperatorLowering.visit symtable <$> es))
  ∧ ⋃ (symrefs <$> (FieldOperatorLowering.visit symtable <$> es))
    ⊆ ⋃ (names_of <$> es) ∪ ⋃ (operator_values <$> es) ∪ primitives.
Proof. induction 1 as [|x xs [Hx1 Hx2] _ [IH1 IH2]]; csimpl; set_solver. Qed.

(** X12. The lowering keeps every name of the expression as a symbol
    reference, and refers to no symbol besides these names, the values of
    the operators of the expression, and [deref], [tuple_get] and
    [make_tuple]. *)
Theorem lowering_identifiers (symtable : gmap string foast.Symbol) e :
  names_of e ⊆ symrefs (FieldOperatorLowering.visit symtable e)
  ∧ symrefs (FieldOperatorLowering.visit symtable e)
    ⊆ names_of e ∪ operator_values e ∪ primitives.
Proof.
  induction e as [l i|l v i [IH1 IH2]|l elts IH|l op e [IH1 IH2]
                 |l op a b [IHa1 IHa2] [IHb1 IHb2]
                 |l op a b [IHa1 IHa2] [IHb1 IHb2]|l f args [IHf1 IHf2] IHargs]
    using foast_Expr_ind; unfold_lowering.
  - pose proof (symrefs_visit_Name symtable i). simpl. set_solver.
  - unfold primitives in *. simpl. set_solver.
  - destruct (symrefs_visit_list symtable elts IH) as [H1 H2].
    unfold primitives in *. simpl. set_solver.
  - unfold primitives in *. case_decide; simpl; set_solver.
  - unfold primitives in *. simpl. set_solver.
  - unfold primitives in *. simpl. set_solver.
  - destruct (symrefs_visit_list symtable args IHargs) as [H1 H2].
    unfold primitives in *. destruct f; simpl in *; set_solver.
Qed.
(** ** Identifiers of the resolved value *)

Lemma names_of_visit_subseteq (N : gset string) (names : gmap string foast.Expr) e :
  (∀ i d, names !! i = Some d → names_of d ⊆ N) →
  names_of e ⊆ N →
  names_of (AssignResolver.visit names e) ⊆ N.
Proof.
  intros Hnames.
  induction e as [l i|l v i IH|l elts IH|l op e IH|l op a b IHa IHb
                 |l op a b IHa IHb|l f args IHf IHargs] using foast_Expr_ind;
    simpl; intros Hsub.
  - destruct (names !! i) as [d|] eqn:Hi.
    + rewrite (visit_Name_bound _ _ _ d) by done. by apply Hnames with i.
    + by rewrite visit_Name_free.
  - by apply IH.
  - apply union_list_fmap_subseteq, Forall_fmap. apply (Forall_mp _ _ _ IH).
    by apply union_list_fmap_subseteq.
  - by apply IH.
  - apply union_subseteq. split; [apply IHa | apply IHb]; set_solver.
  - apply union_subseteq. split; [apply IHa | apply IHb]; set_solver.
  - apply union_subseteq. split; [apply IHf; set_solver|].
    apply union_list_fmap_subseteq, Forall_fmap. apply (Forall_mp _ _ _ IHargs).
    apply union_list_fmap_subseteq. set_solver.
Qed.

Lemma resolve_loop_names_subseteq (N : gset string) nodes :
  ∀ names names' : gmap string foast.Expr,
    (∀ i d, names !! i = Some d → names_of d ⊆ N) →
    body_names nodes ⊆ N →
    AssignResolver.resolve_loop names nodes = Some names' →
    ∀ i d, names' !! i = Some d → names_of d ⊆ N.
Proof.
  unfold body_names.
  induction nodes as [|[l t v|l v] nodes IH]; intros names names' Hnames Hsub Hloop;
    csimpl in *.
  - by injection Hloop as <-.
  - rewrite update_visit_Assign in Hloop. eapply IH; [|set_solver|exact Hloop].
    intros i d. rewrite lookup_insert. case_decide.
    + intros [= <-]. apply names_of_visit_subseteq; [done|set_solver].
    + apply Hnames.
  - done.
Qed.

(** X13. The resolver invents no name: every name of the resolved value is
    a name that occurs in a value of the body. *)
Theorem resolved_names_from_body (nodes : list foast.Stmt) l v :
  AssignResolver.apply nodes = Some (foast.Return l v) →
  names_of v ⊆ body_names nodes.
Proof.
  destruct nodes as [|final assigns _] using rev_ind; [done|].
  rewrite apply_snoc.
  destruct (AssignResolver.resolve_loop ∅ assigns) as [names|] eqn:Hloop; [|done].
  simpl. intros [= _ <-].
  assert (Hparts : body_names (assigns ++ [final])
                   = body_names assigns ∪ names_of (foast.stmt_value final)).
  { unfold body_names. rewrite fmap_app, union_list_app_L. csimpl. set_solver. }
  apply names_of_visit_subseteq; [|rewrite Hparts; set_solver].
  apply (resolve_loop_names_subseteq _ assigns ∅ names); [|rewrite Hparts; set_solver|done].
  intros i d. by rewrite lookup_empty.
Qed.
End further_properties.

(** * The further properties on concrete bodies *)

Section further_concrete.
#[local] Existing Instance Sample.declarations.

(** [tmp1 = inp; tmp2 = tmp1; return tmp2] has a last statement. *)
Lemma apply_needs_last_statement_witness :
  forallb is_Assign (removelast Sample.rename_body) = true ∧
  is_Some (AssignResolver.apply Sample.rename_body).
Proof.
  assert (Hassigns : forallb is_Assign (removelast Sample.rename_body) = true)
    by reflexivity.
  split; [exact Hassigns|].
  apply (proj2 (apply_needs_last_statement Sample.rename_body Hassigns)). discriminate.
Defined.

(** The resolved [return inp] of the chain of renames is resolved to itself. *)
Lemma apply_idempotent_witness :
  AssignResolver.apply Sample.rename_body
  = Some (foast.Return (Sample.loc 4 4) (foast.Name (Sample.loc 2 11) "inp")) ∧
  AssignResolver.apply [foast.Return (Sample.loc 4 4) (foast.Name (Sample.loc 2 11) "inp")]
  = Some (foast.Return (Sample.loc 4 4) (foast.Name (Sample.loc 2 11) "inp")).
Proof.
  assert (Hresolved :
    AssignResolver.apply Sample.rename_body
    = Some (foast.Return (Sample.loc 4 4) (foast.Name (Sample.loc 2 11) "inp")))
    by (vm_compute; reflexivity).
  split; [exact Hresolved|].
  exact (apply_idempotent Sample.rename_body _ Hresolved).
Defined.

(** [a = inp + inp; b = (a, a); return f(inp)] returns [f(inp)]. *)
Lemma unreferenced_assignments_dropped_witness :
  AssignResolver.apply
    (Sample.assignments_in_order ++ [foast.Return (Sample.loc 4 4) Sample.call_of_f])
  = Some (foast.Return (Sample.loc 4 4) Sample.call_of_f).
Proof.
  apply (unreferenced_assignments_dropped Sample.assignments_in_order).
  - reflexivity.
  - apply (bool_decide_unpack _). vm_compute. exact I.
Defined.

(** In [a = inp + inp; b = (a, a); return f(inp)] the argument [inp] of the
    call is not assigned. *)
Lemma free_name_kept_witness :
  ∃ v', AssignResolver.apply
          (Sample.assignments_in_order ++ [foast.Return (Sample.loc 4 4) Sample.call_of_f])
        = Some (foast.Return (Sample.loc 4 4) v') ∧
        subterm_at [1] v' = Some (foast.Name (Sample.loc 2 13) "inp").
Proof.
  apply (free_name_kept Sample.assignments_in_order (Sample.loc 4 4) Sample.call_of_f
           [1] (Sample.loc 2 13) "inp").
  - reflexivity.
  - apply (bool_decide_unpack _). vm_compute. exact I.
  - reflexivity.
Defined.

(** [a = inp + inp; b = (a, a); return b[1]] uses [a] and [b] after their
    assignments. *)
Lemma assigned_names_eliminated_witness :
  ∃ v', AssignResolver.apply
          (Sample.assignments_in_order ++ [foast.Return (Sample.loc 4 4) Sample.second_of_b])
        = Some (foast.Return (Sample.loc 4 4) v') ∧
        names_of v' ## list_to_set (targets Sample.assignments_in_order).
Proof.
  apply (assigned_names_eliminated Sample.assignments_in_order).
  vm_compute. reflexivity.
Defined.

(** In [a = b; b = inp; return a] the name [b] is assigned after its use,
    and the body is resolved to [return b]. *)
Lemma later_assignment_not_substituted_witness :
  ∃ d, AssignResolver.apply Sample.use_before_definition
       = Some (foast.Return (Sample.loc 4 4) d) ∧
       subterm_at [] d = Some (foast.Name (Sample.loc 2 8) "b").
Proof.
  apply (later_assignment_not_substituted []
           [foast.Assign (Sample.loc 3 4)
              {| foast.target_location := Sample.loc 3 4; foast.target_id := "b" |}
              (foast.Name (Sample.loc 3 8) "inp")]
           (Sample.loc 2 4) Sample.target_a (foast.Name (Sample.loc 2 8) "b")
           (Sample.loc 4 4) (Sample.loc 4 11) [] (Sample.loc 2 8) "b").
  - reflexivity.
  - reflexivity.
  - apply not_elem_of_nil.
  - apply (bool_decide_unpack _). vm_compute. exact I.
  - reflexivity.
Defined.

(** [tmp1 = inp; tmp2 = tmp1; return tmp2] is lowered as the field [inp]. *)
Lemma rename_chain_lowered_witness :
  FieldOperatorLowering.body_visit Sample.rename_body Sample.symtable
  = Some (itir.FunCall (itir.SymRef "deref") [itir.SymRef "inp"]).
Proof.
  rewrite (rename_chain_lowered "inp" Sample.rename_body Sample.symtable).
  - vm_compute. reflexivity.
  - vm_compute. reflexivity.
Defined.

(** The lowering of [f(inp)] is the same whether or not the symbol table
    holds the call target [f] as a field. *)
Lemma lowering_reads_value_names_witness :
  is_field Sample.symtable "f" ≠ is_field Sample.symtable_with_f "f" ∧
  FieldOperatorLowering.visit Sample.symtable Sample.call_of_f
  = FieldOperatorLowering.visit Sample.symtable_with_f Sample.call_of_f.
Proof.
  split; [vm_compute; discriminate|].
  apply (lowering_reads_value_names Sample.symtable Sample.symtable_with_f Sample.call_of_f).
  intros i Hi. simpl in Hi.
  assert (i = "inp") as -> by set_solver.
  vm_compute. reflexivity.
Defined.

(** The resolved [return inp] of [tmp1 = inp; tmp2 = tmp1; return tmp2]. *)
Lemma resolved_names_from_body_witness :
  names_of (foast.Name (Sample.loc 2 11) "inp") ⊆ body_names Sample.rename_body.
Proof.
  apply (resolved_names_from_body Sample.rename_body (Sample.loc 4 4)).
  vm_compute. reflexivity.
Defined.
End further_concrete.

(** * Lowering of an operator *)

Section operator_lowering.
Context `{Declarations}.



End operator_lowering.

Section operator_lowering_concrete.
#[local] Existing Instance Sample.declarations.


End operator_lowering_concrete.
